(** * Connection lifecycle of the server's transport layer

    A shallow embedding of [src/mongo/transport/session.cpp] (the connection
    endpoint [transport::Session]) and of
    [src/mongo/transport/service_entry_point_impl.cpp] (the registry
    [ServiceEntryPointImpl]), with the per-connection driver
    ([ServiceStateMachine]) and the transport layer as collaborators. *)

From Stdlib Require Import String ZArith List Lia Bool Arith Sorting.Sorted Sorting.Permutation Lists.Finite.
Import ListNotations.
Open Scope Z_scope.

(* ------------------------------------------------------------------------- *)
(** ** The connection endpoint: [transport::Session] *)

Module Session.

(** A resolved socket address is kept opaque. *)
Definition SockAddr := nat.

(** [HostAndPort]: host, port and the optional resolved socket address that
    [sockAddr()] returns. *)
Record HostAndPort := mkHostAndPort {
  hp_host : string;
  hp_port : Z;
  hp_sockAddr : option SockAddr
}.

(** A [TransportLayer*]; [None] is [nullptr]. *)
Definition TransportLayer := nat.

Definition SessionId := Z.

Record Session := mkSession {
  _id : SessionId;
  _remote : HostAndPort;
  _local : HostAndPort;
  _tl : option TransportLayer
}.

(** [AtomicUInt64 sessionIdCounter(0)]: a 64-bit unsigned counter. *)
Definition UINT64_MOD : Z := 2 ^ 64.

(** [sessionIdCounter.addAndFetch(1)]: the counter after the increment, which
    is also the value returned. *)
Definition addAndFetch (counter delta : Z) : Z := (counter + delta) mod UINT64_MOD.

(** [Session::Session(remote, local, tl)]: returns the new session and the new
    value of the process-wide counter. *)
Definition construct (counter : Z) (remote local : HostAndPort)
    (tl : option TransportLayer) : Session * Z :=
  let c := addAndFetch counter 1 in
  (mkSession c remote local tl, c).

(** The transport-layer notification [_tl->end] on the session itself. *)
Record EndNotification := mkEnd { end_tl : TransportLayer; end_session : SessionId }.

(** [Session::~Session()]: notifies the transport layer iff [_tl != nullptr]. *)
Definition destroy (s : Session) : list EndNotification :=
  match _tl s with
  | Some t => [mkEnd t (_id s)]
  | None => []
  end.

(** [Session::Session(Session&& other)]: returns the new session and [other]
    after the move.  The moved-from [HostAndPort]s are in a valid but
    unspecified state; they are kept as they were. *)
Definition move_construct (other : Session) : Session * Session :=
  let dst := mkSession (_id other) (_remote other) (_local other) (_tl other) in
  (dst, mkSession (_id other) (_remote other) (_local other) None).

(** [Session::operator=(Session&& other)]: returns the assigned-to session and [other] after
    the assignment, statement by statement:
    [_id = other._id; _remote = ...; _local = ...; _tl = other._tl; _tl = nullptr;] *)
Definition move_assign (self other : Session) : Session * Session :=
  let self1 := mkSession (_id other) (_remote other) (_local other) (_tl self) in
  let self2 := mkSession (_id self1) (_remote self1) (_local self1) (_tl other) in
  let self3 := mkSession (_id self2) (_remote self2) (_local self2) None in
  (self3, other).

Definition id (s : Session) : SessionId := _id s.
Definition remote (s : Session) : HostAndPort := _remote s.
Definition local (s : Session) : HostAndPort := _local s.

(** *** Sessions living in slots of memory, moved between slots. *)

Definition Slot := nat.
Definition Store := Slot -> option Session.

Definition upd (m : Store) (k : Slot) (v : option Session) : Store :=
  fun k' => if Nat.eqb k' k then v else m k'.

Inductive Op :=
| MoveConstruct (dst src : Slot)   (** [Session dst(std::move(src));] *)
| MoveAssign (dst src : Slot)      (** [dst = std::move(src);] *)
| Destroy (slot : Slot).           (** end of lifetime of [slot] *)

(** One operation; [None] when it uses a slot holding no live session (or
    constructs into a live one). *)
Definition exec_op (m : Store) (op : Op) : option (Store * list EndNotification) :=
  match op with
  | MoveConstruct dst src =>
      match m dst, m src with
      | None, Some s =>
          if Nat.eqb dst src then None else
          let '(d, s') := move_construct s in
          Some (upd (upd m src (Some s')) dst (Some d), [])
      | _, _ => None
      end
  | MoveAssign dst src =>
      match m dst, m src with
      | Some d, Some s =>
          if Nat.eqb dst src then None else
          let '(d', s') := move_assign d s in
          Some (upd (upd m src (Some s')) dst (Some d'), [])
      | _, _ => None
      end
  | Destroy slot =>
      match m slot with
      | Some s => Some (upd m slot None, destroy s)
      | None => None
      end
  end.

Fixpoint exec (m : Store) (ops : list Op) : option (Store * list EndNotification) :=
  match ops with
  | [] => Some (m, [])
  | op :: rest =>
      match exec_op m op with
      | Some (m', ns) =>
          match exec m' rest with
          | Some (m'', ns') => Some (m'', ns ++ ns')
          | None => None
          end
      | None => None
      end
  end.

(** *** The identifiers handed out by successive constructions. *)

(** The identifiers of [n] constructions, in the order their atomic increments
    took effect, starting from counter value [c]. *)
Fixpoint session_ids_from (n : nat) (c : Z) : list SessionId :=
  match n with
  | O => []
  | S k =>
      let c' := addAndFetch c 1 in
      c' :: session_ids_from k c'
  end.

(** The process starts with [sessionIdCounter] at zero. *)
Definition session_ids (n : nat) : list SessionId := session_ids_from n 0.

End Session.

(* ------------------------------------------------------------------------- *)
(** ** The registry: [ServiceEntryPointImpl] *)

Module Registry.

(** [transport::Session::TagMask]: a 32-bit mask. *)
Definition TagMask := Z.

(** Modelled from the spec: the lifecycle states of the per-connection driver
    ([ServiceStateMachine::State], whose source is not in this tree),
    [Created -> Running -> Ended], [Ended] terminal. *)
Inductive State := Created | Running | Ended.

Definition is_ended (s : State) : bool :=
  match s with Ended => true | _ => false end.

(** How far the [startSession] call that built a driver has got:
    [PhCreated] after [ServiceStateMachine::create], [PhRegistered] after the
    [_sessions.emplace] under the lock, [PhHooked] after [setCleanupHook],
    [PhLaunched] after [scheduleNext()] or [launchServiceWorkerThread]. *)
Inductive Phase := PhCreated | PhRegistered | PhHooked | PhLaunched.

(** A driver with the tags and identifier of the session it owns, its state,
    whether a cleanup hook is installed, and whether a termination was
    requested. *)
Record Driver := mkDriver {
  drv_id : Z;
  drv_tags : TagMask;
  drv_state : State;
  drv_phase : Phase;
  drv_hook : bool;
  drv_term : bool
}.

(** Modelled from the spec: [ServiceStateMachine::terminate()] requests a
    forced shutdown ("requests forced shutdown", "does not guarantee immediate
    cessation"); on a driver already [Ended] it is a no-op. *)
Definition terminate (d : Driver) : Driver :=
  if is_ended (drv_state d) then d
  else mkDriver (drv_id d) (drv_tags d) (drv_state d) (drv_phase d) (drv_hook d) true.

(** The drivers, addressed by handle (their index: the [shared_ptr]), and the
    list [_sessions] of handles. *)
Record World := mkWorld {
  drivers : list Driver;
  sessions : list nat
}.

Fixpoint list_set {A} (l : list A) (n : nat) (x : A) : list A :=
  match l, n with
  | [], _ => []
  | _ :: t, O => x :: t
  | y :: t, S k => y :: list_set t k x
  end.

Definition update_driver (w : World) (h : nat) (f : Driver -> Driver) : World :=
  match nth_error (drivers w) h with
  | Some d => mkWorld (list_set (drivers w) h (f d)) (sessions w)
  | None => w
  end.

(** [getNumberOfConnections()]: [_sessions.size()] under the lock. *)
Definition getNumberOfConnections (w : World) : nat := length (sessions w).

(** *** [endAllSessions] *)

(** The observable actions of [endAllSessions], in program order. *)
Inductive Ev :=
| ELock                 (** [_sessionsMutex] acquired *)
| EUnlock               (** [_sessionsMutex] released *)
| ESessionCall (h : nat)  (** the driver accessor [ssm->session()] *)
| ELogSkip (id : Z)     (** [log() << "Skip closing connection ..."] *)
| ETerminate (h : nat).  (** [ssm->terminate()] *)

Definition tags_of (w : World) (h : nat) : TagMask :=
  match nth_error (drivers w) h with Some d => drv_tags d | None => 0 end.

Definition id_of (w : World) (h : nat) : Z :=
  match nth_error (drivers w) h with Some d => drv_id d | None => 0 end.

(** The loop over [_sessions] under the lock: the events and [connsToEnd]. *)
Fixpoint scan (w : World) (tags : TagMask) (l : list nat) : list Ev * list nat :=
  match l with
  | [] => ([], [])
  | h :: rest =>
      let '(evs, conns) := scan w tags rest in
      if negb (Z.land (tags_of w h) tags =? 0)
      then (ESessionCall h :: ESessionCall h :: ELogSkip (id_of w h) :: evs, conns)
      else (ESessionCall h :: evs, h :: conns)
  end.

(** The loop calling [terminate()] on every entry of [connsToEnd]. *)
Fixpoint terminate_all (w : World) (conns : list nat) : World * list Ev :=
  match conns with
  | [] => (w, [])
  | h :: rest =>
      let '(w', evs) := terminate_all (update_driver w h terminate) rest in
      (w', ETerminate h :: evs)
  end.

Definition endAllSessions (w : World) (tags : TagMask) : World * list Ev :=
  let '(evs, connsToEnd) := scan w tags (sessions w) in
  let '(w', evs') := terminate_all w connsToEnd in
  (w', ELock :: evs ++ EUnlock :: evs').

(** The handles a trace terminates, in order. *)
Fixpoint terminated (evs : list Ev) : list nat :=
  match evs with
  | [] => []
  | ETerminate h :: rest => h :: terminated rest
  | _ :: rest => terminated rest
  end.

(** Whether the lock is held after a prefix of a trace. *)
Fixpoint lock_held_after (held : bool) (evs : list Ev) : bool :=
  match evs with
  | [] => held
  | ELock :: rest => lock_held_after true rest
  | EUnlock :: rest => lock_held_after false rest
  | _ :: rest => lock_held_after held rest
  end.

Definition is_driver_call (e : Ev) : bool :=
  match e with ESessionCall _ | ETerminate _ => true | _ => false end.

Definition is_terminate (e : Ev) : bool :=
  match e with ETerminate _ => true | _ => false end.

End Registry.

(** *** [startSession] and the worker it launches *)

Module StartSession.
Import Registry.

(** The actions of one [startSession] call and of its worker, in program
    order. *)
Inductive SEv :=
| EvInvariantFailure       (** [invariant(remoteAddr && localAddr)] fails *)
| EvSetRestriction         (** [RestrictionEnvironment::set] *)
| EvCreate (sync : bool)   (** [ServiceStateMachine::create(..., sync)] *)
| EvLock                   (** [_sessionsMutex] acquired *)
| EvEmplace                (** [_sessions.emplace(_sessions.begin(), ssm)] *)
| EvUnlock                 (** [_sessionsMutex] released *)
| EvSetCleanupHook         (** [ssm->setCleanupHook(...)] *)
| EvScheduleNext           (** [ssm->scheduleNext()] *)
| EvLaunchWorker           (** [launchServiceWorkerThread(...)] *)
| EvWorkerInc              (** [_nWorkers.addAndFetch(1)] *)
| EvRunNext                (** [ssm->runNext()] *)
| EvYield                  (** [stdx::this_thread::yield()] *)
| EvWorkerDec.             (** [_nWorkers.subtractAndFetch(1)] (scope guard) *)

(** An invariant failure terminates the process; otherwise the call returns. *)
Inductive Outcome := Fatal | Returned.

(** [startSession(session)] with the service executor configured or not
    ([getServiceExecutor() != nullptr]).  The collaborators it calls
    (restriction environment, [ServiceStateMachine::create], the executor,
    [launchServiceWorkerThread]) do not fail. *)
Definition startSession (hasExecutor : bool) (session : Session.Session) : Outcome * list SEv :=
  match Session.hp_sockAddr (Session.remote session), Session.hp_sockAddr (Session.local session) with
  | Some _, Some _ =>
      let sync := negb hasExecutor in
      (Returned,
       [EvSetRestriction; EvCreate sync; EvLock; EvEmplace; EvUnlock; EvSetCleanupHook]
       ++ (if negb sync then [EvScheduleNext] else [EvLaunchWorker]))
  | _, _ => (Fatal, [EvInvariantFailure])
  end.

(** [numCores]: [getNumAvailableCores()] when it has a value, else
    [getNumCores()]. *)
Definition numCores (availCores : option nat) (nCores : nat) : nat :=
  match availCores with
  | Some a => a
  | None => nCores
  end.

Section Worker.

(** The environment of one worker: the core counts, the value
    [_nWorkers.load()] reads after the [k]-th [runNext()] (other workers change
    it concurrently), and the state of the driver after its [k]-th
    [runNext()] (the network decides it). *)
Variable availCores : option nat.
Variable nCores : nat.
Variable load : nat -> nat.
Variable next_state : nat -> State.

(** The driver's state seen by the loop test before the [k]-th iteration. *)
Definition state_at (k : nat) : State :=
  match k with
  | O => Created
  | S j => next_state j
  end.

(** [while (ssm->state() != Ended) { ssm->runNext(); if (...) yield(); }],
    run for at most [fuel] iterations from iteration [k]; the flag tells
    whether the loop exited. *)
Fixpoint worker_loop (fuel k : nat) : list SEv * bool :=
  match fuel with
  | O => ([], false)
  | S f =>
      if is_ended (state_at k) then ([], true)
      else
        let ys := if Nat.ltb (numCores availCores nCores) (load k) then [EvYield] else [] in
        let '(rest, done) := worker_loop f (S k) in
        (EvRunNext :: ys ++ rest, done)
  end.

(** The body handed to [launchServiceWorkerThread]. *)
Definition worker (fuel : nat) : list SEv * bool :=
  let '(body, done) := worker_loop fuel 0 in
  (EvWorkerInc :: body ++ (if done then [EvWorkerDec] else []), done).

(** The [k]-th iteration of the loop as the source writes it. *)
Definition iteration (k : nat) : list SEv :=
  EvRunNext :: (if Nat.ltb (numCores availCores nCores) (load k) then [EvYield] else []).

End Worker.

(** The actions of one connection: the [startSession] call, then (in the
    synchronous case) its worker, which starts after it is launched. *)
Definition connection_trace (hasExecutor : bool) (session : Session.Session)
    (availCores : option nat) (nCores : nat) (load : nat -> nat)
    (next_state : nat -> State) (fuel : nat) : list SEv :=
  let '(o, evs) := startSession hasExecutor session in
  match o with
  | Fatal => evs
  | Returned =>
      if hasExecutor then evs
      else evs ++ fst (worker availCores nCores load next_state fuel)
  end.

End StartSession.

(** *** All connections interleaved *)

Module Interleaving.
Import Registry.

Definition new_driver (id : Z) (tags : TagMask) : Driver :=
  mkDriver id tags Created PhCreated false false.

Definition set_phase (p : Phase) (d : Driver) : Driver :=
  mkDriver (drv_id d) (drv_tags d) (drv_state d) p (drv_hook d) (drv_term d).

Definition install_hook (d : Driver) : Driver :=
  mkDriver (drv_id d) (drv_tags d) (drv_state d) PhHooked true (drv_term d).

Definition set_state (s : State) (d : Driver) : Driver :=
  mkDriver (drv_id d) (drv_tags d) s (drv_phase d) (drv_hook d) (drv_term d).

(** The cleanup hook: [_sessions.erase(ssmIt)] under the lock. *)
Definition erase (h : nat) (l : list nat) : list nat :=
  filter (fun x => negb (Nat.eqb x h)) l.

(** Modelled from the spec: one unit of work of a launched driver
    ([runNext()], or one step scheduled on the executor) moves it to [next],
    or to [Ended] when a termination was requested.  The cleanup hook is not
    part of it: it runs afterwards as an action of its own ([LCleanup]). *)
Definition run_step (w : World) (h : nat) (d : Driver) (next : State) : World :=
  let s := if drv_term d then Ended else next in
  mkWorld (list_set (drivers w) h (set_state s d)) (sessions w).

Inductive Label :=
| LCreate (id : Z) (tags : TagMask)
| LEmplace (h : nat)
| LSetHook (h : nat)
| LLaunch (h : nat)
| LRun (h : nat) (next : State)
| LCleanup (h : nat)
| LTerminate (h : nat).

(** Each [startSession] call goes through create, emplace (under the lock),
    set the hook, launch; launched drivers run; the cleanup hook of a driver
    that has reached [Ended] takes [_sessionsMutex] and erases its entry, as a
    step of its own, so other actions may come between the driver's last unit
    of work and the erase; any driver may be terminated (by [endAllSessions]
    from its snapshot). *)
Inductive step : World -> Label -> World -> Prop :=
| st_create : forall w id tags,
    step w (LCreate id tags) (mkWorld (drivers w ++ [new_driver id tags]) (sessions w))
| st_emplace : forall w h d,
    nth_error (drivers w) h = Some d -> drv_phase d = PhCreated ->
    step w (LEmplace h)
      (mkWorld (list_set (drivers w) h (set_phase PhRegistered d)) (h :: sessions w))
| st_set_hook : forall w h d,
    nth_error (drivers w) h = Some d -> drv_phase d = PhRegistered ->
    step w (LSetHook h) (mkWorld (list_set (drivers w) h (install_hook d)) (sessions w))
| st_launch : forall w h d,
    nth_error (drivers w) h = Some d -> drv_phase d = PhHooked ->
    step w (LLaunch h) (mkWorld (list_set (drivers w) h (set_phase PhLaunched d)) (sessions w))
| st_run : forall w h d next,
    nth_error (drivers w) h = Some d -> drv_phase d = PhLaunched ->
    drv_state d <> Ended ->
    step w (LRun h next) (run_step w h d next)
| st_cleanup : forall w h d,
    nth_error (drivers w) h = Some d -> drv_state d = Ended -> drv_hook d = true ->
    In h (sessions w) ->
    step w (LCleanup h) (mkWorld (drivers w) (erase h (sessions w)))
| st_terminate : forall w h d,
    nth_error (drivers w) h = Some d ->
    step w (LTerminate h) (mkWorld (list_set (drivers w) h (terminate d)) (sessions w)).

Definition init : World := mkWorld [] [].

Inductive reachable : World -> Prop :=
| reach_init : reachable init
| reach_step : forall w l w', reachable w -> step w l w' -> reachable w'.

Definition live (d : Driver) : bool := negb (is_ended (drv_state d)).

Definition registered_live (d : Driver) : bool :=
  match drv_phase d with PhCreated => false | _ => live d end.

(** A driver past the [emplace] of its [startSession]. *)
Definition inserted (d : Driver) : bool :=
  match drv_phase d with PhCreated => false | _ => true end.

(** A registry entry whose driver has reached [Ended]: its cleanup hook has
    not yet erased it. *)
Definition hook_pending (w : World) (h : nat) : bool :=
  match nth_error (drivers w) h with Some d => is_ended (drv_state d) | None => false end.

Definition pending_insert (d : Driver) : bool :=
  match drv_phase d with PhCreated => true | _ => false end.

(** The drivers built by [startSession] and not yet [Ended]. *)
Definition count_live (w : World) : nat := length (filter live (drivers w)).

End Interleaving.

(* ------------------------------------------------------------------------- *)
(** ** Properties of the connection endpoint *)

Module SessionFacts.
Import Session.

(** Move-construction transfers the transport-layer reference and detaches
    the source. *)
Lemma move_construct_transfers (s : Session) :
  let '(d, s') := move_construct s in
  id d = id s /\ remote d = remote s /\ local d = local s /\
  _tl d = _tl s /\ _tl s' = None.
Proof. destruct s; simpl; repeat split. Qed.

(** The source of a move-construction is discarded silently. *)
Lemma move_construct_source_silent (s : Session) :
  destroy (snd (move_construct s)) = [].
Proof. destruct s; reflexivity. Qed.

(** C1: the move-assignment copies identifier and addresses, but it clears the
    transport-layer reference of the destination and leaves the source's
    untouched: afterwards the destination holds none and the source still
    holds the original one. *)
Theorem move_assign_clears_destination (self other : Session) :
  let '(d, s') := move_assign self other in
  id d = id other /\ remote d = remote other /\ local d = local other /\
  _tl d = None /\ _tl s' = _tl other.
Proof. destruct self, other; simpl; repeat split. Qed.

(** The endpoints used below: an attached session on transport layer 7, and a
    detached one in slot 1 to be assigned to. *)
Definition hp (port : Z) : HostAndPort := mkHostAndPort "127.0.0.1" port (Some 1%nat).

Definition attached : Session := mkSession 1 (hp 40000) (hp 27017) (Some 7%nat).
Definition detached : Session := mkSession 2 (hp 40001) (hp 27017) None.

Definition store0 : Store :=
  fun k => match k with 0%nat => Some attached | 1%nat => Some detached | _ => None end.

(** C2: after [slot1 = std::move(slot0)], discarding the moved-from session
    in slot 0 notifies the transport layer, and discarding the destination
    does not. *)
Theorem moved_from_husk_notifies :
  exists m,
    exec store0 [MoveAssign 1%nat 0%nat] = Some (m, []) /\
    exec m [Destroy 0%nat] = Some (upd m 0%nat None, [mkEnd 7%nat 1]) /\
    exec (upd m 0%nat None) [Destroy 1%nat] = Some (upd (upd m 0%nat None) 1%nat None, []).
Proof.
  eexists. split; [reflexivity|]. split; reflexivity.
Qed.

(** Identifiers of [n] constructions from counter [c], in closed form. *)
Lemma session_ids_from_spec (n : nat) (c : Z) :
  session_ids_from n c = map (fun k => (c + Z.of_nat k) mod UINT64_MOD) (seq 1 n).
Proof.
  revert c; induction n as [|n IH]; intro c; [reflexivity|].
  cbn [session_ids_from seq map]. rewrite IH.
  unfold addAndFetch. f_equal.
  rewrite <- (seq_shift n 1), map_map. apply map_ext. intro k.
  rewrite Zplus_mod_idemp_l. f_equal. lia.
Qed.

Lemma seq_sorted (s n : nat) : Sorted Z.lt (map Z.of_nat (seq s n)).
Proof.
  revert s; induction n as [|n IH]; intro s; simpl; constructor; [apply IH|].
  destruct n; simpl; constructor; lia.
Qed.

(** C5 (as stated, refuted): the counter is 64 bits wide, so the
    [2^64]-th construction is handed identifier zero. *)
Theorem session_id_zero_after_wrap : In 0 (session_ids (Z.to_nat UINT64_MOD)).
Proof.
  unfold session_ids. rewrite session_ids_from_spec.
  remember (Z.to_nat UINT64_MOD) as N eqn:HN.
  assert (HZ : Z.of_nat N = UINT64_MOD).
  { subst N. apply Z2Nat.id. unfold UINT64_MOD. lia. }
  apply in_map_iff. exists N. split.
  - rewrite HZ, Z.add_0_l. apply Z_mod_same_full.
  - apply in_seq. unfold UINT64_MOD in HZ. lia.
Qed.

(** C5 (amended): the first [n < 2^64] constructions, in the order of their
    atomic increments, get the identifiers [1, 2, ..., n]: pairwise distinct,
    never zero, strictly increasing. *)
Theorem session_ids_unique_nonzero (n : nat) (Hn : Z.of_nat n < UINT64_MOD) :
  session_ids n = map Z.of_nat (seq 1 n) /\
  NoDup (session_ids n) /\ ~ In 0 (session_ids n) /\ Sorted Z.lt (session_ids n).
Proof.
  assert (E : session_ids n = map Z.of_nat (seq 1 n)).
  { unfold session_ids. rewrite session_ids_from_spec. apply map_ext_in.
    intros k Hk. apply in_seq in Hk. rewrite Z.add_0_l. apply Z.mod_small. lia. }
  rewrite E. split; [reflexivity|]. split; [|split].
  - apply Injective_map_NoDup; [intros a b; lia | apply seq_NoDup].
  - intro H. apply in_map_iff in H. destruct H as [k [Hk Hin]].
    apply in_seq in Hin. lia.
  - apply seq_sorted.
Qed.

Lemma session_ids_unique_nonzero_witness :
  Z.of_nat 3 < UINT64_MOD /\ session_ids 3 = [1; 2; 3].
Proof.
  assert (H : Z.of_nat 3 < UINT64_MOD) by (unfold UINT64_MOD; lia).
  split; [exact H|].
  destruct (session_ids_unique_nonzero 3 H) as [E _]. rewrite E. reflexivity.
Defined.

End SessionFacts.

(* ------------------------------------------------------------------------- *)
(** ** Properties of [endAllSessions] *)

Module EndAllFacts.
Import Registry.

Lemma nth_error_list_set {A} (l : list A) (n k : nat) (x : A) :
  nth_error (list_set l n x) k =
  if Nat.eqb k n then (match nth_error l k with Some _ => Some x | None => None end)
  else nth_error l k.
Proof.
  revert n k; induction l as [|y t IH]; intros n k.
  - destruct n, k; simpl; try reflexivity; destruct (Nat.eqb k n); reflexivity.
  - destruct n, k; simpl; try reflexivity. rewrite IH. reflexivity.
Qed.

Lemma terminate_idem (d : Driver) : terminate (terminate d) = terminate d.
Proof. destruct d as [i t [] p hk tm]; reflexivity. Qed.

Lemma update_driver_nth (w : World) (h k : nat) :
  nth_error (drivers (update_driver w h terminate)) k =
  if Nat.eqb k h then option_map terminate (nth_error (drivers w) k)
  else nth_error (drivers w) k.
Proof.
  unfold update_driver. destruct (nth_error (drivers w) h) as [d|] eqn:Hd; simpl.
  - rewrite nth_error_list_set. destruct (Nat.eqb_spec k h); subst; [rewrite Hd|]; reflexivity.
  - destruct (Nat.eqb_spec k h); subst; [rewrite Hd|]; reflexivity.
Qed.

Lemma update_driver_sessions (w : World) (h : nat) :
  sessions (update_driver w h terminate) = sessions w.
Proof. unfold update_driver. destruct (nth_error _ _); reflexivity. Qed.

Definition disjoint_tags (w : World) (tags : TagMask) (h : nat) : bool :=
  Z.land (tags_of w h) tags =? 0.

Lemma scan_conns (w : World) (tags : TagMask) (l : list nat) :
  snd (scan w tags l) = filter (disjoint_tags w tags) l.
Proof.
  induction l as [|h rest IH]; [reflexivity|]. simpl.
  destruct (scan w tags rest) as [evs conns]; simpl in *. subst conns.
  unfold disjoint_tags. destruct (Z.land (tags_of w h) tags =? 0); reflexivity.
Qed.

Lemma scan_events (w : World) (tags : TagMask) (l : list nat) :
  Forall (fun e => (exists h, e = ESessionCall h) \/ (exists i, e = ELogSkip i))
    (fst (scan w tags l)).
Proof.
  induction l as [|h rest IH]; simpl; [constructor|].
  destruct (scan w tags rest) as [evs conns]; simpl in *.
  destruct (negb _); simpl.
  - constructor; [left; eauto|]. constructor; [left; eauto|].
    constructor; [right; eauto|]. exact IH.
  - constructor; [left; eauto | exact IH].
Qed.

Lemma terminated_app (a b : list Ev) : terminated (a ++ b) = terminated a ++ terminated b.
Proof. induction a as [|[] a IH]; simpl; try rewrite IH; reflexivity. Qed.

Lemma terminated_scan (w : World) (tags : TagMask) (l : list nat) :
  terminated (fst (scan w tags l)) = [].
Proof.
  induction l as [|h rest IH]; [reflexivity|]. simpl.
  destruct (scan w tags rest) as [evs conns]; simpl in *.
  destruct (negb _); simpl; exact IH.
Qed.

Lemma terminate_all_spec (conns : list nat) : forall w,
  let '(w', evs) := terminate_all w conns in
  evs = map ETerminate conns /\ sessions w' = sessions w /\
  forall k, nth_error (drivers w') k =
    if existsb (Nat.eqb k) conns then option_map terminate (nth_error (drivers w) k)
    else nth_error (drivers w) k.
Proof.
  induction conns as [|h rest IH]; intro w; simpl.
  - repeat split.
  - specialize (IH (update_driver w h terminate)).
    destruct (terminate_all (update_driver w h terminate) rest) as [w' evs].
    destruct IH as [Hevs [Hs Hk]]. subst evs. split; [reflexivity|]. split.
    + rewrite Hs. apply update_driver_sessions.
    + intro k. rewrite Hk, update_driver_nth.
      destruct (Nat.eqb_spec k h); simpl; destruct (existsb _ rest); try reflexivity.
      destruct (nth_error (drivers w) k); simpl; [rewrite terminate_idem|]; reflexivity.
Qed.

Lemma terminated_map (conns : list nat) : terminated (map ETerminate conns) = conns.
Proof. induction conns; simpl; congruence. Qed.

Lemma land_zero_iff_disjoint (a b : Z) :
  Z.land a b = 0 <-> (forall i, 0 <= i -> ~ (Z.testbit a i = true /\ Z.testbit b i = true)).
Proof.
  split.
  - intros H i Hi [Ha Hb]. assert (Z.testbit (Z.land a b) i = true) as E.
    { rewrite Z.land_spec, Ha, Hb. reflexivity. }
    rewrite H, Z.testbit_0_l in E. discriminate.
  - intro H. apply Z.bits_inj'. intros i Hi. rewrite Z.land_spec, Z.testbit_0_l.
    specialize (H i Hi). destruct (Z.testbit a i), (Z.testbit b i); tauto.
Qed.

(** C3: [endAllSessions(tags)] calls [terminate()] on exactly the registered
    drivers whose session's tags share no bit with [tags], in registry order;
    each of them is terminated, and every registered driver whose tags do
    share a bit with [tags] is left as it was. *)
Theorem endAllSessions_terminates_disjoint (w : World) (tags : TagMask) :
  let '(w', evs) := endAllSessions w tags in
  terminated evs = filter (fun h => Z.land (tags_of w h) tags =? 0) (sessions w) /\
  (forall h, In h (terminated evs) <->
     In h (sessions w) /\
     forall i, 0 <= i -> ~ (Z.testbit (tags_of w h) i = true /\ Z.testbit tags i = true)) /\
  (forall h, In h (terminated evs) ->
     nth_error (drivers w') h = option_map terminate (nth_error (drivers w) h)) /\
  (forall h, In h (sessions w) -> Z.land (tags_of w h) tags <> 0 ->
     nth_error (drivers w') h = nth_error (drivers w) h) /\
  sessions w' = sessions w.
Proof.
  unfold endAllSessions.
  pose proof (scan_conns w tags (sessions w)) as Hc.
  pose proof (terminated_scan w tags (sessions w)) as Ht.
  destruct (scan w tags (sessions w)) as [sevs conns]. simpl in Hc, Ht. subst conns.
  pose proof (terminate_all_spec (filter (disjoint_tags w tags) (sessions w)) w) as Hta.
  destruct (terminate_all w _) as [w' tevs]. destruct Hta as [Hevs [Hs Hk]].
  assert (Hterm : terminated (ELock :: sevs ++ EUnlock :: tevs)
                  = filter (disjoint_tags w tags) (sessions w)).
  { simpl. rewrite terminated_app, Ht. simpl. subst tevs. apply terminated_map. }
  rewrite Hterm. split; [reflexivity|]. split; [|split; [|split]].
  - intro h. rewrite filter_In, <- land_zero_iff_disjoint. unfold disjoint_tags.
    rewrite Z.eqb_eq. reflexivity.
  - intros h Hin. rewrite Hk.
    replace (existsb (Nat.eqb h) _) with true; [reflexivity|].
    symmetry. apply existsb_exists. exists h. split; [exact Hin | apply Nat.eqb_refl].
  - intros h Hin Hne. rewrite Hk.
    replace (existsb (Nat.eqb h) _) with false; [reflexivity|].
    symmetry. apply not_true_iff_false. intro E. apply existsb_exists in E.
    destruct E as [x [Hx Hxe]]. apply Nat.eqb_eq in Hxe. subst x.
    apply filter_In in Hx. destruct Hx as [_ Hx]. unfold disjoint_tags in Hx.
    apply Z.eqb_eq in Hx. contradiction.
  - exact Hs.
Qed.

(** A registry with one driver, tagged 0, and its handle registered. *)
Definition one_driver : World :=
  mkWorld [mkDriver 1 0 Running PhLaunched true false] [0%nat].

(** C7 (as stated, refuted): while [_sessionsMutex] is held, [endAllSessions]
    calls into a driver: [ssm->session()], to read the session's tags. *)
Theorem endAllSessions_calls_driver_under_lock :
  exists pre post,
    snd (endAllSessions one_driver 0) = pre ++ ESessionCall 0 :: post /\
    lock_held_after false pre = true /\ is_driver_call (ESessionCall 0) = true.
Proof. exists [ELock], [EUnlock; ETerminate 0]. repeat split. Qed.

(** C7 (amended): a run of [endAllSessions] takes the lock, makes under it
    only the non-blocking [session()] accessor calls (and skip logs) that
    build the snapshot, which is complete when the lock is released, and
    only then calls [terminate()], once per snapshot entry. *)
Theorem endAllSessions_lock_discipline (w : World) (tags : TagMask) :
  exists under after,
    snd (endAllSessions w tags) = ELock :: under ++ EUnlock :: after /\
    Forall (fun e => (exists h, e = ESessionCall h) \/ (exists i, e = ELogSkip i)) under /\
    after = map ETerminate (snd (scan w tags (sessions w))).
Proof.
  unfold endAllSessions.
  pose proof (scan_events w tags (sessions w)) as He.
  destruct (scan w tags (sessions w)) as [sevs conns] eqn:Hs. simpl in He.
  pose proof (terminate_all_spec conns w) as Hta.
  destruct (terminate_all w conns) as [w' tevs]. destruct Hta as [Hevs _].
  exists sevs, tevs. simpl. repeat split; assumption.
Qed.

End EndAllFacts.

(* ------------------------------------------------------------------------- *)
(** ** Properties of [startSession] *)

Module StartSessionFacts.
Import Registry StartSession.

(** C8: [startSession] dies on its invariant exactly when the session lacks
    a resolved remote or local socket address; with both resolved it always
    returns normally. *)
Theorem startSession_fatal_iff_unresolved (hasExecutor : bool) (s : Session.Session) :
  (fst (startSession hasExecutor s) = Fatal <->
     Session.hp_sockAddr (Session.remote s) = None \/
     Session.hp_sockAddr (Session.local s) = None) /\
  (fst (startSession hasExecutor s) = Returned <->
     Session.hp_sockAddr (Session.remote s) <> None /\
     Session.hp_sockAddr (Session.local s) <> None).
Proof.
  unfold startSession.
  destruct (Session.hp_sockAddr (Session.remote s)), (Session.hp_sockAddr (Session.local s));
    simpl; repeat split; intros; try discriminate; try tauto;
    try (destruct H; discriminate); try (destruct H; congruence).
Qed.

Section WorkerFacts.
Variable availCores : option nat.
Variable nCores : nat.
Variable load : nat -> nat.
Variable next_state : nat -> State.

Lemma worker_loop_exits (n : nat) : forall fuel k,
  (forall j, (j < n)%nat -> state_at next_state (k + j) <> Ended) ->
  state_at next_state (k + n) = Ended -> (n < fuel)%nat ->
  worker_loop availCores nCores load next_state fuel k =
    (concat (map (iteration availCores nCores load) (seq k n)), true).
Proof.
  induction n as [|n IH]; intros fuel k Hlive Hend Hfuel;
    (destruct fuel as [|f]; [lia|]); simpl.
  - rewrite Nat.add_0_r in Hend. rewrite Hend. reflexivity.
  - assert (H0 : state_at next_state k <> Ended).
    { specialize (Hlive 0%nat ltac:(lia)). rewrite Nat.add_0_r in Hlive. exact Hlive. }
    destruct (state_at next_state k) eqn:Hk; [| |contradiction]; simpl;
    rewrite (IH f (S k));
      try (intros j Hj; replace (S k + j)%nat with (k + S j)%nat by lia; apply Hlive; lia);
      try (replace (S k + n)%nat with (k + S n)%nat by lia; exact Hend);
      try lia; reflexivity.
Qed.

Lemma worker_loop_runs (fuel : nat) : forall k,
  (forall j, state_at next_state (k + j) <> Ended) ->
  worker_loop availCores nCores load next_state fuel k =
    (concat (map (iteration availCores nCores load) (seq k fuel)), false).
Proof.
  induction fuel as [|f IH]; intros k Hlive; [reflexivity|]. simpl.
  assert (H0 := Hlive 0%nat). rewrite Nat.add_0_r in H0.
  destruct (state_at next_state k) eqn:Hk; [| |contradiction]; simpl;
  rewrite (IH (S k)); try reflexivity;
  intro j; replace (S k + j)%nat with (k + S j)%nat by lia; apply Hlive.
Qed.

End WorkerFacts.

Definition async_trace : list SEv :=
  [EvSetRestriction; EvCreate false; EvLock; EvEmplace; EvUnlock; EvSetCleanupHook;
   EvScheduleNext].

Definition sync_trace : list SEv :=
  [EvSetRestriction; EvCreate true; EvLock; EvEmplace; EvUnlock; EvSetCleanupHook;
   EvLaunchWorker].

(** C6: with a service executor configured, [startSession] calls
    [scheduleNext()] once, as its last action, and returns; without one it
    launches a worker, which increments [_nWorkers], calls [runNext()] while
    the driver's state is not [Ended], after each call yields iff the
    [_nWorkers] value it loads exceeds the core count, and decrements
    [_nWorkers] when the loop exits (and not before). *)
Theorem startSession_strategy (s : Session.Session) (r l : Session.SockAddr)
    (Hr : Session.hp_sockAddr (Session.remote s) = Some r)
    (Hl : Session.hp_sockAddr (Session.local s) = Some l) :
  startSession true s = (Returned, async_trace) /\
  startSession false s = (Returned, sync_trace) /\
  (forall availCores nCores load next_state n fuel,
     (forall k, (k < n)%nat -> state_at next_state k <> Ended) ->
     state_at next_state n = Ended -> (n < fuel)%nat ->
     worker availCores nCores load next_state fuel =
       (EvWorkerInc :: concat (map (iteration availCores nCores load) (seq 0 n))
          ++ [EvWorkerDec], true)) /\
  (forall availCores nCores load next_state fuel,
     (forall k, state_at next_state k <> Ended) ->
     worker availCores nCores load next_state fuel =
       (EvWorkerInc :: concat (map (iteration availCores nCores load) (seq 0 fuel)), false)).
Proof.
  split; [|split; [|split]].
  - unfold startSession. rewrite Hr, Hl. reflexivity.
  - unfold startSession. rewrite Hr, Hl. reflexivity.
  - intros ac nc ld ns n fuel Hlive Hend Hf. unfold worker.
    rewrite (worker_loop_exits ac nc ld ns n fuel 0); auto.
  - intros ac nc ld ns fuel Hlive. unfold worker.
    rewrite (worker_loop_runs ac nc ld ns fuel 0); [|auto].
    rewrite app_nil_r. reflexivity.
Qed.

Definition resolved_session : Session.Session :=
  Session.mkSession 1 (SessionFacts.hp 40000) (SessionFacts.hp 27017) (Some 7%nat).

Lemma startSession_strategy_witness :
  startSession true resolved_session = (Returned, async_trace) /\
  worker None 2 (fun _ => 3%nat) (fun k => match k with O => Running | _ => Ended end) 5 =
    ([EvWorkerInc; EvRunNext; EvYield; EvRunNext; EvYield; EvWorkerDec], true).
Proof.
  destruct (startSession_strategy resolved_session 1%nat 1%nat eq_refl eq_refl)
    as [Ha [_ [Hw _]]].
  split; [exact Ha|].
  rewrite (Hw None 2%nat (fun _ => 3%nat) (fun k => match k with O => Running | _ => Ended end)
             2%nat 5%nat); [reflexivity| |reflexivity|lia].
  intros k Hk. destruct k as [|[|k]]; simpl; try discriminate; lia.
Defined.

Lemma app_prefix_notin {A} (e : A) (a b pre post : list A) :
  a ++ b = pre ++ e :: post -> ~ In e a -> exists mid, pre = a ++ mid.
Proof.
  revert pre; induction a as [|x a IH]; intros pre Heq Hn; [exists pre; reflexivity|].
  destruct pre as [|y pre]; simpl in Heq; inversion Heq; subst.
  - exfalso. apply Hn. simpl. auto.
  - destruct (IH pre H1) as [mid Hm]; [intro; apply Hn; simpl; auto|].
    exists mid. subst. reflexivity.
Qed.

Definition starts_driver (e : SEv) : Prop := e = EvRunNext \/ e = EvScheduleNext.

Lemma connection_trace_order (hasExecutor : bool) (s : Session.Session)
    (availCores : option nat) (nCores : nat) (load : nat -> nat)
    (next_state : nat -> State) (fuel : nat) (pre post : list SEv) (e : SEv) :
  connection_trace hasExecutor s availCores nCores load next_state fuel = pre ++ e :: post ->
  starts_driver e ->
  In EvEmplace pre /\ In EvSetCleanupHook pre.
Proof.
  intros Heq He. unfold connection_trace, startSession in Heq.
  set (a := [EvSetRestriction; EvCreate (negb hasExecutor); EvLock; EvEmplace; EvUnlock;
             EvSetCleanupHook]).
  assert (Hna : ~ In e a).
  { unfold a; destruct He; subst; simpl; intuition discriminate. }
  assert (Hpre : forall b, a ++ b = pre ++ e :: post -> In EvEmplace pre /\ In EvSetCleanupHook pre).
  { intros b Hb. destruct (app_prefix_notin e a b pre post Hb Hna) as [mid Hm].
    subst pre. split; apply in_or_app; left; unfold a; simpl; tauto. }
  destruct (Session.hp_sockAddr (Session.remote s)), (Session.hp_sockAddr (Session.local s));
    try (destruct pre as [|? [|]]; inversion Heq; subst; destruct He; discriminate).
  destruct hasExecutor.
  - apply (Hpre [EvScheduleNext]). exact Heq.
  - apply (Hpre (EvLaunchWorker :: fst (worker availCores nCores load next_state fuel))).
    rewrite <- Heq. simpl. reflexivity.
Qed.

End StartSessionFacts.

(* ------------------------------------------------------------------------- *)
(** ** The registry across interleaved connections *)

Module InterleavingFacts.
Import Registry Interleaving.

Definition at_handle (w : World) (p : Driver -> bool) (h : nat) : bool :=
  match nth_error (drivers w) h with Some d => p d | None => false end.

(** The invariant of reachable worlds.  Every entry of [_sessions] belongs to
    an inserted driver; every inserted driver not yet [Ended] has one; an
    [Ended] driver may keep its entry until its cleanup hook runs. *)
Record Inv (w : World) : Prop := {
  inv_nodup : NoDup (sessions w);
  inv_in : forall h, In h (sessions w) -> at_handle w inserted h = true;
  inv_live : forall h, at_handle w registered_live h = true -> In h (sessions w);
  inv_created : forall h d, nth_error (drivers w) h = Some d ->
                drv_phase d <> PhLaunched -> drv_state d = Created;
  inv_hook : forall h d, nth_error (drivers w) h = Some d ->
             (drv_hook d = true <-> drv_phase d = PhHooked \/ drv_phase d = PhLaunched)
}.

Lemma nth_error_set (l : list Driver) (h k : nat) (d x : Driver) :
  nth_error l h = Some d ->
  nth_error (list_set l h x) k = if Nat.eqb k h then Some x else nth_error l k.
Proof.
  intro Hd. rewrite EndAllFacts.nth_error_list_set.
  destruct (Nat.eqb_spec k h); subst; [rewrite Hd|]; reflexivity.
Qed.

Lemma nth_error_snoc (l : list Driver) (x : Driver) (k : nat) :
  nth_error (l ++ [x]) k =
  if Nat.ltb k (length l) then nth_error l k
  else if Nat.eqb k (length l) then Some x else None.
Proof.
  destruct (Nat.ltb_spec k (length l)).
  - apply nth_error_app1. exact H.
  - rewrite nth_error_app2 by exact H.
    destruct (Nat.eqb_spec k (length l)).
    + subst. rewrite Nat.sub_diag. reflexivity.
    + destruct (k - length l)%nat eqn:E; [lia|]. simpl. destruct n0; reflexivity.
Qed.

Lemma at_handle_list_set (w : World) (h k : nat) (d x : Driver) (p : Driver -> bool)
    (ss : list nat) :
  nth_error (drivers w) h = Some d ->
  at_handle (mkWorld (list_set (drivers w) h x) ss) p k =
  if Nat.eqb k h then p x else at_handle w p k.
Proof.
  intro Hd. unfold at_handle. simpl. rewrite (nth_error_set _ _ _ _ _ Hd).
  destruct (Nat.eqb k h); reflexivity.
Qed.

Lemma at_handle_snoc (w : World) (x : Driver) (p : Driver -> bool) (ss : list nat) (k : nat) :
  at_handle (mkWorld (drivers w ++ [x]) ss) p k =
  if Nat.ltb k (length (drivers w)) then at_handle w p k
  else if Nat.eqb k (length (drivers w)) then p x else false.
Proof.
  unfold at_handle. simpl. rewrite nth_error_snoc.
  destruct (Nat.ltb _ _); [reflexivity|]. destruct (Nat.eqb _ _); reflexivity.
Qed.

Lemma in_erase (h k : nat) (l : list nat) : In k (erase h l) <-> In k l /\ k <> h.
Proof.
  unfold erase. rewrite filter_In, negb_true_iff, Nat.eqb_neq. reflexivity.
Qed.

Lemma erase_nodup (h : nat) (l : list nat) : NoDup l -> NoDup (erase h l).
Proof. intro. apply NoDup_filter. assumption. Qed.

Lemma inv_init : Inv init.
Proof.
  constructor; simpl.
  - constructor.
  - intros h [].
  - intros h Hh. unfold at_handle in Hh. destruct h; discriminate.
  - intros h d Hd. destruct h; discriminate.
  - intros h d Hd. destruct h; discriminate.
Qed.

Lemma inv_step (w : World) (l : Label) (w' : World) :
  Inv w -> step w l w' -> Inv w'.
Proof.
  intros [Hnd Hin Hlive Hcr Hhk] Hs. inversion Hs; subst; clear Hs.
  - (* create *)
    constructor; cbn [drivers sessions].
    + exact Hnd.
    + intros k Hk. rewrite at_handle_snoc. specialize (Hin k Hk).
      destruct (Nat.ltb_spec k (length (drivers w))); [exact Hin|].
      unfold at_handle in Hin. rewrite (proj2 (nth_error_None _ _) H) in Hin. discriminate.
    + intros k Hk. rewrite at_handle_snoc in Hk.
      destruct (Nat.ltb k _); [exact (Hlive k Hk)|].
      destruct (Nat.eqb k _); cbv in Hk; discriminate.
    + intros k d Hd. rewrite nth_error_snoc in Hd.
      destruct (Nat.ltb k _); [eauto|]. destruct (Nat.eqb k _); inversion Hd; reflexivity.
    + intros k d Hd. rewrite nth_error_snoc in Hd.
      destruct (Nat.ltb k _); [eauto|].
      destruct (Nat.eqb k _); inversion Hd; subst; simpl; split; intro X;
        [discriminate | destruct X; discriminate].
  - (* emplace *)
    assert (Hnot : ~ In h (sessions w)).
    { intro E. specialize (Hin h E). unfold at_handle, inserted in Hin.
      rewrite H, H0 in Hin. discriminate. }
    assert (Hst : drv_state d = Created) by (apply (Hcr h); [exact H | rewrite H0; discriminate]).
    constructor; cbn [drivers sessions].
    + constructor; assumption.
    + intros k Hk. rewrite (at_handle_list_set _ _ _ _ _ _ _ H).
      destruct (Nat.eqb_spec k h); [reflexivity|].
      destruct Hk as [E|Hk]; [congruence | exact (Hin k Hk)].
    + intros k Hk. rewrite (at_handle_list_set _ _ _ _ _ _ _ H) in Hk. simpl.
      destruct (Nat.eqb_spec k h); [left; congruence | right; exact (Hlive k Hk)].
    + intros k d' Hd'. rewrite (nth_error_set _ _ _ _ _ H) in Hd'.
      destruct (Nat.eqb k h); [inversion Hd'; subst; intros _; exact Hst | eauto].
    + intros k d' Hd'. rewrite (nth_error_set _ _ _ _ _ H) in Hd'.
      destruct (Nat.eqb k h); [|eauto]. inversion Hd'; subst. simpl.
      specialize (Hhk h d H). rewrite H0 in Hhk.
      destruct (drv_hook d); split; intro X; try discriminate;
        try (destruct X; discriminate); exfalso; destruct (proj1 Hhk eq_refl); discriminate.
  - (* set the cleanup hook *)
    constructor; cbn [drivers sessions].
    + exact Hnd.
    + intros k Hk. rewrite (at_handle_list_set _ _ _ _ _ _ _ H).
      destruct (Nat.eqb k h); [reflexivity | exact (Hin k Hk)].
    + intros k Hk. rewrite (at_handle_list_set _ _ _ _ _ _ _ H) in Hk.
      destruct (Nat.eqb_spec k h); [subst|exact (Hlive k Hk)].
      apply Hlive. unfold at_handle. rewrite H. unfold registered_live. rewrite H0. exact Hk.
    + intros k d' Hd'. rewrite (nth_error_set _ _ _ _ _ H) in Hd'.
      destruct (Nat.eqb k h); [inversion Hd'; subst; simpl; intros _; apply (Hcr h d H); rewrite H0; discriminate | eauto].
    + intros k d' Hd'. rewrite (nth_error_set _ _ _ _ _ H) in Hd'.
      destruct (Nat.eqb k h); [inversion Hd'; subst; simpl; tauto | eauto].
  - (* launch *)
    constructor; cbn [drivers sessions].
    + exact Hnd.
    + intros k Hk. rewrite (at_handle_list_set _ _ _ _ _ _ _ H).
      destruct (Nat.eqb k h); [reflexivity | exact (Hin k Hk)].
    + intros k Hk. rewrite (at_handle_list_set _ _ _ _ _ _ _ H) in Hk.
      destruct (Nat.eqb_spec k h); [subst|exact (Hlive k Hk)].
      apply Hlive. unfold at_handle. rewrite H. unfold registered_live. rewrite H0. exact Hk.
    + intros k d' Hd'. rewrite (nth_error_set _ _ _ _ _ H) in Hd'.
      destruct (Nat.eqb k h); [inversion Hd'; subst; simpl; congruence | eauto].
    + intros k d' Hd'. rewrite (nth_error_set _ _ _ _ _ H) in Hd'.
      destruct (Nat.eqb k h); [|eauto]. inversion Hd'; subst; simpl.
      specialize (Hhk h d H). rewrite H0 in Hhk. split; [tauto|]. intros _. apply Hhk. tauto.
  - (* one unit of work *)
    assert (Hin0 : In h (sessions w)).
    { apply Hlive. unfold at_handle. rewrite H. unfold registered_live, live. rewrite H0.
      destruct (drv_state d); [reflexivity|reflexivity|contradiction]. }
    unfold run_step. set (s := if drv_term d then Ended else next).
    constructor; cbn [drivers sessions].
    + exact Hnd.
    + intros k Hk. rewrite (at_handle_list_set _ _ _ _ _ _ _ H).
      destruct (Nat.eqb k h); [|exact (Hin k Hk)].
      unfold inserted. simpl. rewrite H0. reflexivity.
    + intros k Hk. rewrite (at_handle_list_set _ _ _ _ _ _ _ H) in Hk.
      destruct (Nat.eqb_spec k h); [subst; exact Hin0 | exact (Hlive k Hk)].
    + intros k d' Hd'. rewrite (nth_error_set _ _ _ _ _ H) in Hd'.
      destruct (Nat.eqb k h); [inversion Hd'; subst; simpl; congruence | eauto].
    + intros k d' Hd'. rewrite (nth_error_set _ _ _ _ _ H) in Hd'.
      destruct (Nat.eqb k h); [inversion Hd'; subst; simpl; apply (Hhk h d H) | eauto].
  - (* the cleanup hook erases the entry under the lock *)
    constructor; cbn [drivers sessions].
    + apply erase_nodup. exact Hnd.
    + intros k Hk. apply in_erase in Hk. exact (Hin k (proj1 Hk)).
    + intros k Hk. apply in_erase. split; [exact (Hlive k Hk)|]. intro E. subst k.
      unfold at_handle in Hk. cbn [drivers] in Hk. rewrite H in Hk.
      unfold registered_live, live in Hk. rewrite H0 in Hk.
      destruct (drv_phase d); simpl in Hk; discriminate.
    + exact Hcr.
    + exact Hhk.
  - (* terminate *)
    assert (Htd : drv_state (terminate d) = drv_state d /\ drv_phase (terminate d) = drv_phase d /\
                  drv_hook (terminate d) = drv_hook d).
    { unfold terminate. destruct (is_ended _); simpl; tauto. }
    destruct Htd as [T1 [T2 T3]].
    constructor; cbn [drivers sessions].
    + exact Hnd.
    + intros k Hk. rewrite (at_handle_list_set _ _ _ _ _ _ _ H).
      destruct (Nat.eqb_spec k h); [subst|exact (Hin k Hk)].
      specialize (Hin h Hk). unfold at_handle in Hin. rewrite H in Hin.
      unfold inserted in *. rewrite T2. exact Hin.
    + intros k Hk. rewrite (at_handle_list_set _ _ _ _ _ _ _ H) in Hk.
      destruct (Nat.eqb_spec k h); [subst|exact (Hlive k Hk)].
      apply Hlive. unfold at_handle. rewrite H. unfold registered_live, live in *.
      rewrite T1, T2 in Hk. exact Hk.
    + intros k d' Hd'. rewrite (nth_error_set _ _ _ _ _ H) in Hd'.
      destruct (Nat.eqb k h); [inversion Hd'; subst; rewrite T1, T2; eauto | eauto].
    + intros k d' Hd'. rewrite (nth_error_set _ _ _ _ _ H) in Hd'.
      destruct (Nat.eqb k h); [inversion Hd'; subst; rewrite T2, T3; eauto | eauto].
Qed.

Lemma reachable_inv (w : World) : reachable w -> Inv w.
Proof. induction 1; [apply inv_init | eapply inv_step; eauto]. Qed.

End InterleavingFacts.

Module RegistryCount.
Import Registry Interleaving InterleavingFacts.

Lemma filter_map_S_length (f : nat -> bool) (xs : list nat) :
  length (filter f (map S xs)) = length (filter (fun x => f (S x)) xs).
Proof. induction xs as [|x xs IH]; simpl; [reflexivity|]. destruct (f (S x)); simpl; congruence. Qed.

Lemma count_by_index (p : Driver -> bool) (l : list Driver) :
  length (filter (fun h => match nth_error l h with Some d => p d | None => false end)
                 (seq 0 (length l))) = length (filter p l).
Proof.
  induction l as [|a l IH]; [reflexivity|].
  simpl length. rewrite <- seq_shift. cbn [seq filter nth_error].
  destruct (p a); simpl; rewrite filter_map_S_length; simpl; rewrite IH; reflexivity.
Qed.


Lemma length_filter_split {A} (f : A -> bool) (l : list A) :
  length l = (length (filter f l) + length (filter (fun x => negb (f x)) l))%nat.
Proof. induction l as [|x l IH]; [reflexivity|]. simpl. destruct (f x); simpl; lia. Qed.

Lemma sessions_count (w : World) :
  Inv w -> getNumberOfConnections w =
    (length (filter registered_live (drivers w)) + length (filter (hook_pending w) (sessions w)))%nat.
Proof.
  intro Hi. unfold getNumberOfConnections.
  rewrite (length_filter_split (hook_pending w) (sessions w)), Nat.add_comm. f_equal.
  rewrite <- count_by_index. apply Permutation_length.
  apply NoDup_Permutation;
    [apply NoDup_filter, (inv_nodup w Hi) | apply NoDup_filter, seq_NoDup |].
  intro h. rewrite !filter_In, in_seq, negb_true_iff. split.
  - intros [Hh Hp]. pose proof (inv_in w Hi h Hh) as Hr. unfold at_handle, hook_pending in *.
    destruct (nth_error (drivers w) h) as [d|] eqn:E; [|discriminate].
    assert (h < length (drivers w))%nat by (apply nth_error_Some; congruence).
    split; [lia|]. unfold registered_live, live, inserted in *. rewrite Hp.
    destruct (drv_phase d); simpl; congruence.
  - intros [_ Hr]. split; [apply (inv_live w Hi); exact Hr|]. unfold hook_pending.
    destruct (nth_error (drivers w) h) as [d|]; [|reflexivity].
    unfold registered_live, live in Hr.
    destruct (drv_phase d), (is_ended (drv_state d)); simpl in Hr; congruence.
Qed.

Lemma live_split (l : list Driver) :
  (forall d, In d l -> drv_phase d = PhCreated -> drv_state d = Created) ->
  length (filter live l) = (length (filter registered_live l) + length (filter pending_insert l))%nat.
Proof.
  induction l as [|d l IH]; intro H; [reflexivity|].
  specialize (IH ltac:(intros; apply H; simpl; auto)).
  assert (Hc := H d (or_introl eq_refl)).
  unfold registered_live, pending_insert, live in *. simpl.
  destruct (drv_phase d) eqn:Ep; [rewrite (Hc eq_refl)|..];
    destruct (drv_state d); simpl; lia.
Qed.

Lemma erase_notin (h : nat) (l : list nat) : ~ In h l -> erase h l = l.
Proof.
  induction l as [|x l IH]; intro H; [reflexivity|]. simpl.
  destruct (Nat.eqb_spec x h); [subst; exfalso; apply H; simpl; auto|].
  simpl. rewrite IH; [reflexivity | intro; apply H; simpl; auto].
Qed.

Lemma erase_length (h : nat) (l : list nat) :
  NoDup l -> In h l -> S (length (erase h l)) = length l.
Proof.
  induction 1 as [|x l Hx Hnd IH]; intro Hin; [contradiction|]. simpl.
  destruct (Nat.eqb_spec x h).
  - subst. simpl. rewrite erase_notin by exact Hx. reflexivity.
  - simpl. rewrite IH; [reflexivity|]. destruct Hin; [congruence | assumption].
Qed.

Lemma step_cleanup_inv (w : World) (h : nat) (w' : World) :
  step w (LCleanup h) w' ->
  exists d, nth_error (drivers w) h = Some d /\ drv_state d = Ended /\ drv_hook d = true /\
            In h (sessions w) /\ w' = mkWorld (drivers w) (erase h (sessions w)).
Proof. inversion 1; subst; eauto 7. Qed.

Definition w_created : World := mkWorld [new_driver 1 0] [].
Definition w_registered : World := mkWorld [set_phase PhRegistered (new_driver 1 0)] [0%nat].

Lemma reachable_w_registered : reachable w_registered.
Proof.
  apply (reach_step w_created (LEmplace 0)).
  - apply (reach_step init (LCreate 1 0)); [constructor | exact (st_create init 1 0)].
  - exact (st_emplace w_created 0 (new_driver 1 0) eq_refl eq_refl).
Qed.

Definition w_launched : World :=
  mkWorld [set_phase PhLaunched (install_hook (set_phase PhRegistered (new_driver 1 0)))] [0%nat].

Lemma reachable_w_launched : reachable w_launched.
Proof.
  set (w_hooked := mkWorld [install_hook (set_phase PhRegistered (new_driver 1 0))] [0%nat]).
  apply (reach_step w_hooked (LLaunch 0)).
  - apply (reach_step w_registered (LSetHook 0)); [exact reachable_w_registered|].
    exact (st_set_hook w_registered 0 _ eq_refl eq_refl).
  - exact (st_launch w_hooked 0 _ eq_refl eq_refl).
Qed.

(** The driver of [w_launched] after the unit of work that ends it, before
    its cleanup hook has taken the lock. *)
Definition w_ended : World :=
  run_step w_launched 0
    (set_phase PhLaunched (install_hook (set_phase PhRegistered (new_driver 1 0)))) Ended.

Lemma reachable_w_ended : reachable w_ended.
Proof.
  apply (reach_step w_launched (LRun 0 Ended)); [exact reachable_w_launched|].
  apply st_run; [reflexivity | reflexivity | discriminate].
Qed.

(** C4 (as stated, refuted): the registry size and the number of drivers not
    yet [Ended] differ in two windows.  Right after
    [ServiceStateMachine::create] in [startSession], before
    [_sessions.emplace], a driver exists that is not [Ended] while
    [getNumberOfConnections()] counts none; and once a driver has reached
    [Ended], until its cleanup hook has taken [_sessionsMutex] and erased its
    entry, it is still counted. *)
Theorem registry_count_differs_from_live :
  (exists w, reachable w /\ getNumberOfConnections w = 0%nat /\ count_live w = 1%nat) /\
  (exists w, reachable w /\ getNumberOfConnections w = 1%nat /\ count_live w = 0%nat).
Proof.
  split.
  - exists w_created. split; [|split; reflexivity].
    apply (reach_step init (LCreate 1 0)); [constructor | exact (st_create init 1 0)].
  - exists w_ended. split; [exact reachable_w_ended | split; reflexivity].
Qed.

(** C4 (amended): in every reachable state [getNumberOfConnections()] is the
    number of drivers inserted into [_sessions] and not yet [Ended], plus the
    number of entries whose driver has reached [Ended] and whose cleanup hook
    has not yet erased them; the drivers not yet [Ended] are the former plus
    the ones whose [startSession] has created them but not yet inserted them.
    The insertion under the lock raises the count by exactly one; the cleanup
    hook's erase lowers it by exactly one, and it can run for every registered
    driver that has reached [Ended]; no other action changes it (in
    particular not the unit of work that takes a driver to [Ended]). *)
Theorem registry_count_tracks_registered (w : World) (Hw : reachable w) :
  getNumberOfConnections w =
    (length (filter registered_live (drivers w)) + length (filter (hook_pending w) (sessions w)))%nat /\
  count_live w =
    (length (filter registered_live (drivers w)) + length (filter pending_insert (drivers w)))%nat /\
  (forall h w', step w (LEmplace h) w' ->
     getNumberOfConnections w' = S (getNumberOfConnections w)) /\
  (forall h w', step w (LCleanup h) w' ->
     S (getNumberOfConnections w') = getNumberOfConnections w) /\
  (forall h d, nth_error (drivers w) h = Some d -> drv_state d = Ended -> In h (sessions w) ->
     exists w', step w (LCleanup h) w') /\
  (forall l w', step w l w' ->
     match l with
     | LEmplace _ | LCleanup _ => True
     | _ => getNumberOfConnections w' = getNumberOfConnections w
     end).
Proof.
  pose proof (reachable_inv w Hw) as Hi.
  split; [apply sessions_count; exact Hi|].
  split.
  { unfold count_live. apply live_split.
    intros d Hd Hp. apply In_nth_error in Hd. destruct Hd as [h Hh].
    apply (inv_created w Hi h d Hh). rewrite Hp. discriminate. }
  split; [|split; [|split]].
  - intros h w' Hs. inversion Hs; subst. reflexivity.
  - intros h w' Hs. destruct (step_cleanup_inv w h w' Hs) as [d [_ [_ [_ [Hin ->]]]]].
    unfold getNumberOfConnections. cbn [sessions].
    apply erase_length; [apply (inv_nodup w Hi) | exact Hin].
  - intros h d Hd He Hin.
    assert (Hp : drv_phase d = PhLaunched).
    { pose proof (inv_created w Hi h d Hd) as Hc.
      destruct (drv_phase d) eqn:E; try reflexivity;
        rewrite Hc in He by (try rewrite E; discriminate); discriminate. }
    assert (Hh : drv_hook d = true) by (apply (inv_hook w Hi h d Hd); right; exact Hp).
    eexists. exact (st_cleanup w h d Hd He Hh Hin).
  - intros l w' Hs. inversion Hs; subst; first [exact I | reflexivity].
Qed.

Lemma registry_count_tracks_registered_witness :
  reachable w_ended /\ getNumberOfConnections w_ended = 1%nat /\
  exists w', step w_ended (LCleanup 0) w' /\ getNumberOfConnections w' = 0%nat.
Proof.
  split; [exact reachable_w_ended|]. split; [reflexivity|].
  destruct (registry_count_tracks_registered w_ended reachable_w_ended)
    as [_ [_ [_ [Hdec [Hen _]]]]].
  destruct (Hen 0%nat _ eq_refl eq_refl (or_introl eq_refl)) as [w' Hs].
  exists w'. split; [exact Hs|].
  specialize (Hdec 0%nat w' Hs).
  assert (E : getNumberOfConnections w_ended = 1%nat) by reflexivity. lia.
Defined.

Lemma step_ends_only_by_run (w : World) (l : Label) (w' : World) :
  step w l w' -> Inv w ->
  forall h d d', nth_error (drivers w) h = Some d -> nth_error (drivers w') h = Some d' ->
  drv_state d <> Ended -> drv_state d' = Ended ->
  (exists next, l = LRun h next) /\ drv_phase d = PhLaunched /\ drv_hook d = true /\
  In h (sessions w).
Proof.
  destruct 1 as [w0 id tags | w0 h0 d0 Hn Hp | w0 h0 d0 Hn Hp | w0 h0 d0 Hn Hp
                 | w0 h0 d0 next Hn Hp Hst | w0 h0 d0 Hn Hen Hhk Hin | w0 h0 d0 Hn];
    intros Hi h d d' Hd Hd' Hne He; simpl in Hd'.
  - rewrite nth_error_app1 in Hd' by (apply nth_error_Some; congruence). congruence.
  - rewrite (nth_error_set _ _ _ _ _ Hn) in Hd'.
    destruct (Nat.eqb_spec h h0); [subst; rewrite Hn in Hd; inversion Hd; inversion Hd'; subst; simpl in He; contradiction | congruence].
  - rewrite (nth_error_set _ _ _ _ _ Hn) in Hd'.
    destruct (Nat.eqb_spec h h0); [subst; rewrite Hn in Hd; inversion Hd; inversion Hd'; subst; simpl in He; contradiction | congruence].
  - rewrite (nth_error_set _ _ _ _ _ Hn) in Hd'.
    destruct (Nat.eqb_spec h h0); [subst; rewrite Hn in Hd; inversion Hd; inversion Hd'; subst; simpl in He; contradiction | congruence].
  - unfold run_step in Hd'. cbn [drivers] in Hd'.
    rewrite (nth_error_set _ _ _ _ _ Hn) in Hd'.
    destruct (Nat.eqb_spec h h0); [|congruence]. subst h0.
    rewrite Hn in Hd. inversion Hd; subst d0.
    split; [eauto|]. split; [exact Hp|]. split.
    + apply (inv_hook w0 Hi h d Hn). tauto.
    + apply (inv_live w0 Hi). unfold at_handle. rewrite Hn.
      unfold registered_live, live. rewrite Hp. destruct (drv_state d); try reflexivity; contradiction.
  - congruence.
  - rewrite (nth_error_set _ _ _ _ _ Hn) in Hd'.
    destruct (Nat.eqb_spec h h0); [|congruence]. subst. rewrite Hn in Hd. inversion Hd; subst.
    inversion Hd'; subst. unfold terminate in He.
    destruct (is_ended (drv_state d)) eqn:E; simpl in He; contradiction.
Qed.

(** C10: in every run of [startSession], the driver is inserted into
    [_sessions] and its cleanup hook installed before it is first set going
    ([scheduleNext()], or the worker's first [runNext()]); hence, in every
    interleaving of connections, the action that first takes a driver to
    [Ended] is one of its own units of work, taken while its registry entry
    exists and its cleanup hook is installed. *)
Theorem driver_registered_before_running :
  (forall hasExecutor s availCores nCores load next_state fuel pre e post,
     StartSession.connection_trace hasExecutor s availCores nCores load next_state fuel
       = pre ++ e :: post ->
     StartSessionFacts.starts_driver e ->
     In StartSession.EvEmplace pre /\ In StartSession.EvSetCleanupHook pre) /\
  (forall w l w' h d d', reachable w -> step w l w' ->
     nth_error (drivers w) h = Some d -> nth_error (drivers w') h = Some d' ->
     drv_state d <> Ended -> drv_state d' = Ended ->
     (exists next, l = LRun h next) /\ drv_phase d = PhLaunched /\ drv_hook d = true /\
     In h (sessions w)).
Proof.
  split.
  - intros. eapply StartSessionFacts.connection_trace_order; eassumption.
  - intros w l w' h d d' Hr Hs. apply (step_ends_only_by_run w l w' Hs (reachable_inv w Hr)).
Qed.

Lemma driver_registered_before_running_witness :
  (In StartSession.EvEmplace (firstn 6 StartSessionFacts.async_trace) /\
   In StartSession.EvSetCleanupHook (firstn 6 StartSessionFacts.async_trace)) /\
  In 0%nat (sessions w_launched).
Proof.
  destruct driver_registered_before_running as [Ht Hw].
  split.
  - apply (Ht true StartSessionFacts.resolved_session None 1%nat (fun _ => 0%nat)
             (fun _ => Ended) 0%nat (firstn 6 StartSessionFacts.async_trace)
             StartSession.EvScheduleNext []); [reflexivity | right; reflexivity].
  - assert (Hs : step w_launched (LRun 0 Ended) (run_step w_launched 0 _ Ended))
      by (apply st_run; [reflexivity | reflexivity | discriminate]).
    refine (proj2 (proj2 (proj2 (Hw w_launched _ _ 0%nat _ _ reachable_w_launched Hs
              eq_refl eq_refl _ eq_refl)))).
    discriminate.
Defined.

End RegistryCount.

(* ------------------------------------------------------------------------- *)
(** ** Moves and destruction composed *)

Module SessionMoves.
Import Session.

(** The notification a slot owes: what destroying its session would send. *)
Definition owed (m : Store) (k : Slot) : list EndNotification :=
  match m k with Some s => destroy s | None => [] end.

(** The notifications a set of slots owes. *)
Definition pending (m : Store) (slots : list Slot) : list EndNotification :=
  flat_map (owed m) slots.

Lemma flat_map_ext_in {A B} (f g : A -> list B) (l : list A) :
  (forall x, In x l -> f x = g x) -> flat_map f l = flat_map g l.
Proof.
  induction l as [|x l IH]; intro H; simpl; [reflexivity|].
  rewrite H, IH; [reflexivity | intros; apply H; simpl; auto | simpl; auto].
Qed.

(** Changing a flat_map over a duplicate-free list at two of its elements
    only, in a way that permutes their joint contribution, permutes it. *)
Lemma flat_map_two_points {B} (f f' : Slot -> list B) (l : list Slot) (a b : Slot) :
  NoDup l -> In a l -> In b l -> a <> b ->
  (forall k, In k l -> k <> a -> k <> b -> f' k = f k) ->
  Permutation (f' a ++ f' b) (f a ++ f b) ->
  Permutation (flat_map f' l) (flat_map f l).
Proof.
  intros Hnd Ha Hb Hab Hrest Hab'.
  set (rest := filter (fun k => negb (Nat.eqb k a) && negb (Nat.eqb k b)) l).
  assert (Hin : forall k, In k rest <-> In k l /\ k <> a /\ k <> b).
  { intro k. unfold rest. rewrite filter_In, andb_true_iff, !negb_true_iff, !Nat.eqb_neq. tauto. }
  assert (Hp : Permutation l (a :: b :: rest)).
  { apply NoDup_Permutation; [exact Hnd| |].
    - constructor; [intros [E|E]; [congruence | apply Hin in E; tauto]|].
      constructor; [intro E; apply Hin in E; tauto|]. apply NoDup_filter. exact Hnd.
    - intro k. simpl. rewrite Hin. split; [|intros [E|[E|E]]; subst; tauto].
      intro Hk. destruct (Nat.eq_dec a k); [left; assumption|].
      destruct (Nat.eq_dec b k); [right; left; assumption|]. right; right; auto. }
  apply (Permutation_trans (Permutation_flat_map f' Hp)).
  apply Permutation_sym in Hp.
  refine (Permutation_trans _ (Permutation_flat_map f Hp)). simpl.
  rewrite (flat_map_ext_in f' f rest) by (intros k Hk; apply Hin in Hk; apply Hrest; tauto).
  rewrite !app_assoc. apply Permutation_app_tail. exact Hab'.
Qed.

Lemma move_construct_step (slots : list Slot) (m m' : Store) (d s : Slot)
    (ns : list EndNotification) :
  NoDup slots -> In d slots -> In s slots ->
  exec_op m (MoveConstruct d s) = Some (m', ns) ->
  ns = [] /\ Permutation (pending m' slots) (pending m slots).
Proof.
  intros Hnd Hd Hs Hx. simpl in Hx.
  destruct (m d) eqn:Ed; [discriminate|]. destruct (m s) as [x|] eqn:Es; [|discriminate].
  destruct (Nat.eqb_spec d s) as [|Hne]; [discriminate|].
  inversion Hx; subst; clear Hx. split; [reflexivity|].
  apply (flat_map_two_points _ _ slots d s Hnd Hd Hs Hne).
  - intros k _ Hk1 Hk2. unfold owed, upd.
    apply Nat.eqb_neq in Hk1, Hk2. rewrite Hk1, Hk2. reflexivity.
  - assert (Hds : Nat.eqb d s = false) by (apply Nat.eqb_neq; exact Hne).
    assert (Hsd : Nat.eqb s d = false) by (apply Nat.eqb_neq; congruence).
    unfold owed, upd. rewrite ?Nat.eqb_refl, ?Hds, ?Hsd, ?Ed, ?Es.
    destruct x as [i r l t]; destruct t; simpl; apply Permutation_refl.
Qed.

Lemma exec_app (m : Store) (a b : list Op) :
  exec m (a ++ b) =
  match exec m a with
  | Some (m1, n1) =>
      match exec m1 b with Some (m2, n2) => Some (m2, n1 ++ n2) | None => None end
  | None => None
  end.
Proof.
  revert m; induction a as [|op a IH]; intro m; simpl.
  - destruct (exec m b) as [[]|]; reflexivity.
  - destruct (exec_op m op) as [[m1 n1]|]; [|reflexivity].
    rewrite IH. destruct (exec m1 a) as [[m2 n2]|]; [|reflexivity].
    destruct (exec m2 b) as [[m3 n3]|]; [|reflexivity]. rewrite app_assoc. reflexivity.
Qed.

Lemma exec_cons (m : Store) (op : Op) (ops : list Op) :
  exec m (op :: ops) =
  match exec_op m op with
  | Some (m', ns) =>
      match exec m' ops with Some (m'', ns') => Some (m'', ns ++ ns') | None => None end
  | None => None
  end.
Proof. reflexivity. Qed.

Lemma exec_destroy_all (slots : list Slot) : NoDup slots ->
  forall m m' ns, exec m (map Destroy slots) = Some (m', ns) -> ns = pending m slots.
Proof.
  induction 1 as [|k rest Hk Hnd IH]; intros m m' ns Hx; simpl in Hx.
  - inversion Hx. reflexivity.
  - destruct (m k) as [s|] eqn:Ek; [|discriminate].
    destruct (exec (upd m k None) (map Destroy rest)) as [[m1 n1]|] eqn:E1; [|discriminate].
    inversion Hx; subst. simpl. unfold owed at 1. rewrite Ek. f_equal.
    rewrite (IH _ _ _ E1). apply flat_map_ext_in. intros k' Hk'.
    unfold owed, upd. destruct (Nat.eqb_spec k' k); [subst; contradiction | reflexivity].
Qed.

(** Moving sessions between slots by move-construction only, then destroying
    every slot, sends exactly the notifications the slots owed before the
    moves: each attached session's [end()] once, whichever slot it ended up
    in, and nothing for a moved-from session. *)
Theorem move_construct_chain_notifies_once (slots : list Slot) (ops : list Op)
    (m m1 m2 : Store) (ns1 ns2 : list EndNotification)
    (Hnd : NoDup slots)
    (Hops : Forall (fun op => exists d s, op = MoveConstruct d s /\ In d slots /\ In s slots) ops)
    (Hmoves : exec m ops = Some (m1, ns1))
    (Hdestroy : exec m1 (map Destroy slots) = Some (m2, ns2)) :
  ns1 = [] /\ Permutation ns2 (pending m slots).
Proof.
  rewrite (exec_destroy_all slots Hnd m1 m2 ns2 Hdestroy).
  clear Hdestroy. revert m Hmoves. induction Hops as [|op ops Hop Hops IH]; intros m Hx.
  - inversion Hx; subst. split; [reflexivity | apply Permutation_refl].
  - destruct Hop as [d [s [-> [Hd Hs]]]]. rewrite exec_cons in Hx.
    destruct (exec_op m (MoveConstruct d s)) as [[m' n']|] eqn:E; [|discriminate].
    destruct (exec m' ops) as [[m'' n'']|] eqn:E2; [|discriminate].
    inversion Hx; subst m'' ns1.
    destruct (move_construct_step slots m m' d s n' Hnd Hd Hs E) as [-> Hp].
    destruct (IH m' E2) as [-> Hp2]. split; [reflexivity|].
    exact (Permutation_trans Hp2 Hp).
Qed.

Definition one_attached : Store :=
  fun k => match k with 0%nat => Some SessionFacts.attached | _ => None end.

Lemma move_construct_chain_notifies_once_witness :
  exists m1 m2,
    exec one_attached [MoveConstruct 1 0; MoveConstruct 2 1]%nat = Some (m1, []) /\
    exec m1 (map Destroy [0; 1; 2]%nat) = Some (m2, [mkEnd 7%nat 1]) /\
    Permutation [mkEnd 7%nat 1] (pending one_attached [0; 1; 2]%nat).
Proof.
  eexists. eexists. split; [reflexivity|]. split; [reflexivity|].
  refine (proj2 (move_construct_chain_notifies_once [0; 1; 2]%nat
            [MoveConstruct 1 0; MoveConstruct 2 1]%nat one_attached _ _ [] [mkEnd 7%nat 1]
            _ _ eq_refl eq_refl)).
  - repeat constructor; simpl; intuition discriminate.
  - repeat constructor; do 2 eexists; (split; [reflexivity|]); simpl; tauto.
Defined.

(** A move-assignment sends no notification, and afterwards the two slots
    together owe only the source's original notification: a connection the
    assigned-to session was still attached to never gets its [end()]. *)
Theorem move_assign_drops_destination_notification (m m' : Store) (dst src : Slot)
    (d s : Session) (ns : list EndNotification)
    (Hd : m dst = Some d) (Hs : m src = Some s)
    (Hx : exec_op m (MoveAssign dst src) = Some (m', ns)) :
  ns = [] /\ pending m [dst; src] = destroy d ++ destroy s /\
  pending m' [dst; src] = destroy s.
Proof.
  simpl in Hx. rewrite Hd, Hs in Hx.
  destruct (Nat.eqb_spec dst src) as [|Hne]; [discriminate|].
  inversion Hx; subst; clear Hx. split; [reflexivity|]. split.
  - unfold pending, owed. simpl. rewrite Hd, Hs, app_nil_r. reflexivity.
  - assert (Hds : Nat.eqb dst src = false) by (apply Nat.eqb_neq; exact Hne).
    assert (Hsd : Nat.eqb src dst = false) by (apply Nat.eqb_neq; congruence).
    unfold pending, owed, upd. simpl. rewrite ?Nat.eqb_refl, ?Hds, ?Hsd.
    destruct d, s as [i r l t]. cbn. destruct t; reflexivity.
Qed.

Lemma move_assign_drops_destination_notification_witness :
  exists m', exec_op SessionFacts.store0 (MoveAssign 1%nat 0%nat) = Some (m', []) /\
    pending m' [1; 0]%nat = [mkEnd 7%nat 1].
Proof.
  eexists. split; [reflexivity|].
  exact (proj2 (proj2 (move_assign_drops_destination_notification SessionFacts.store0 _
           1%nat 0%nat SessionFacts.detached SessionFacts.attached [] eq_refl eq_refl eq_refl))).
Defined.

End SessionMoves.

(* ------------------------------------------------------------------------- *)
(** ** More of [endAllSessions], the registry and the worker *)

Module RegistryExtras.
Import Registry.

(** The connection ids a trace logs as skipped, in order. *)
Fixpoint logged (evs : list Ev) : list Z :=
  match evs with
  | [] => []
  | ELogSkip i :: rest => i :: logged rest
  | _ :: rest => logged rest
  end.

Lemma logged_app (a b : list Ev) : logged (a ++ b) = logged a ++ logged b.
Proof. induction a as [|[] a IH]; simpl; try rewrite IH; reflexivity. Qed.

Lemma logged_terminates (conns : list nat) : logged (map ETerminate conns) = [].
Proof. induction conns; simpl; congruence. Qed.

Lemma logged_scan (w : World) (tags : TagMask) (l : list nat) :
  logged (fst (scan w tags l)) =
  map (id_of w) (filter (fun h => negb (Z.land (tags_of w h) tags =? 0)) l).
Proof.
  induction l as [|h rest IH]; [reflexivity|]. simpl.
  destruct (scan w tags rest) as [evs conns]; simpl in *.
  destruct (negb _); simpl; rewrite IH; reflexivity.
Qed.

(** [endAllSessions] logs the id of every registered connection it skips
    (those whose tags share a bit with the filter), once each, in registry
    order, and logs nothing else. *)
Theorem endAllSessions_logs_skipped (w : World) (tags : TagMask) :
  logged (snd (endAllSessions w tags)) =
  map (id_of w) (filter (fun h => negb (Z.land (tags_of w h) tags =? 0)) (sessions w)).
Proof.
  unfold endAllSessions.
  pose proof (logged_scan w tags (sessions w)) as Hl.
  destruct (scan w tags (sessions w)) as [sevs conns]. simpl in Hl.
  pose proof (EndAllFacts.terminate_all_spec conns w) as Hta.
  destruct (terminate_all w conns) as [w' tevs]. destruct Hta as [-> _].
  simpl. rewrite logged_app. simpl. rewrite logged_terminates, app_nil_r. exact Hl.
Qed.

Lemma endAllSessions_world (w : World) (tags : TagMask) :
  fst (endAllSessions w tags) =
  fst (terminate_all w (filter (EndAllFacts.disjoint_tags w tags) (sessions w))).
Proof.
  unfold endAllSessions. pose proof (EndAllFacts.scan_conns w tags (sessions w)) as Hc.
  destruct (scan w tags (sessions w)) as [sevs conns]. simpl in Hc. subst conns.
  destruct (terminate_all w _). reflexivity.
Qed.

(** Calling [endAllSessions] a second time with the same filter changes no
    driver and no registry entry: termination requests are idempotent and the
    drivers' tags are unchanged by the first call. *)
Theorem endAllSessions_idempotent (w : World) (tags : TagMask) :
  fst (endAllSessions (fst (endAllSessions w tags)) tags) = fst (endAllSessions w tags).
Proof.
  rewrite !endAllSessions_world.
  set (conns := filter (EndAllFacts.disjoint_tags w tags) (sessions w)).
  pose proof (EndAllFacts.terminate_all_spec conns w) as H1.
  destruct (terminate_all w conns) as [w1 e1] eqn:E1. destruct H1 as [_ [Hs1 Hk1]]. simpl.
  assert (Htags : forall h, tags_of w1 h = tags_of w h).
  { intro h. unfold tags_of. rewrite Hk1. destruct (existsb _ _); [|reflexivity].
    destruct (nth_error (drivers w) h) as [d|]; [|reflexivity]. simpl.
    unfold terminate. destruct (is_ended _); reflexivity. }
  assert (Hconns : filter (EndAllFacts.disjoint_tags w1 tags) (sessions w1) = conns).
  { rewrite Hs1. apply filter_ext. intro h. unfold EndAllFacts.disjoint_tags. rewrite Htags.
    reflexivity. }
  rewrite Hconns.
  pose proof (EndAllFacts.terminate_all_spec conns w1) as H2.
  destruct (terminate_all w1 conns) as [w2 e2]. destruct H2 as [_ [Hs2 Hk2]]. simpl.
  destruct w2 as [d2 s2], w1 as [d1 s1]. simpl in *. subst s2. f_equal.
  apply nth_error_ext. intro k. rewrite Hk2, Hk1.
  destruct (existsb _ _); [|reflexivity].
  destruct (nth_error (drivers w) k); simpl; [rewrite EndAllFacts.terminate_idem|]; reflexivity.
Qed.

End RegistryExtras.

Module InterleavingExtras.
Import Registry Interleaving InterleavingFacts.

(** In every reachable state the registry holds at most one entry per
    driver; every entry belongs to a driver that [startSession] has inserted
    (past the [emplace]), and one whose driver has reached [Ended] has its
    cleanup hook installed; every inserted driver not yet [Ended] has an
    entry; and an entry leaves the registry only through the erase of its
    own cleanup hook. *)
Theorem registry_entries_unique (w : World) (Hw : reachable w) :
  NoDup (sessions w) /\
  (forall h, In h (sessions w) ->
     exists d, nth_error (drivers w) h = Some d /\ drv_phase d <> PhCreated /\
               (drv_state d = Ended -> drv_hook d = true)) /\
  (forall h d, nth_error (drivers w) h = Some d -> drv_phase d <> PhCreated ->
     drv_state d <> Ended -> In h (sessions w)) /\
  (forall l w' h, step w l w' -> In h (sessions w) -> ~ In h (sessions w') -> l = LCleanup h).
Proof.
  destruct (reachable_inv w Hw) as [Hnd Hin Hlive Hcr Hhk].
  split; [exact Hnd|]. split; [|split].
  - intros h Hh. specialize (Hin h Hh). unfold at_handle, inserted in Hin.
    destruct (nth_error (drivers w) h) as [d|] eqn:E; [|discriminate].
    exists d. split; [reflexivity|]. split.
    + intro Hp. rewrite Hp in Hin. discriminate.
    + intro He. apply (Hhk h d E). right.
      destruct (drv_phase d) eqn:Ep; try reflexivity; exfalso;
        rewrite (Hcr h d E) in He by (try rewrite Ep; discriminate); discriminate.
  - intros h d Hd Hp Hs. apply Hlive. unfold at_handle. rewrite Hd.
    unfold registered_live, live.
    destruct (drv_phase d); [contradiction| | |];
      destruct (drv_state d); simpl; congruence.
  - intros l w' h Hs Hh Hout. inversion Hs; subst;
      try unfold run_step in Hout; cbn [sessions] in Hout;
      try (exfalso; apply Hout; simpl; auto; fail).
    match goal with
    | |- LCleanup ?x = _ =>
        destruct (Nat.eq_dec x h) as [->|Hne]; [reflexivity|];
        exfalso; apply Hout; apply in_erase; split; [exact Hh | congruence]
    end.
Qed.

Lemma registry_entries_unique_witness :
  reachable RegistryCount.w_ended /\
  exists d, nth_error (drivers RegistryCount.w_ended) 0 = Some d /\ drv_phase d <> PhCreated /\
            (drv_state d = Ended -> drv_hook d = true).
Proof.
  split; [exact RegistryCount.reachable_w_ended|].
  exact (proj1 (proj2 (registry_entries_unique RegistryCount.w_ended
                         RegistryCount.reachable_w_ended)) 0%nat (or_introl eq_refl)).
Defined.

End InterleavingExtras.

Module WorkerExtras.
Import Registry StartSession.

(** When [getNumAvailableCores()] returns an engaged zero, [numCores] is 0
    (there is no fallback to [getNumCores()]), so while at least one worker
    is counted the worker yields after every [runNext()]. *)
Theorem worker_zero_available_cores (nCores : nat) (load : nat -> nat)
    (next_state : nat -> State) (n fuel : nat)
    (Hload : forall k, (1 <= load k)%nat)
    (Hlive : forall k, (k < n)%nat -> state_at next_state k <> Ended)
    (Hend : state_at next_state n = Ended) (Hfuel : (n < fuel)%nat) :
  worker (Some 0%nat) nCores load next_state fuel =
    (EvWorkerInc :: concat (repeat [EvRunNext; EvYield] n) ++ [EvWorkerDec], true).
Proof.
  unfold worker.
  rewrite (StartSessionFacts.worker_loop_exits (Some 0%nat) nCores load next_state n fuel 0)
    by (simpl; auto).
  replace (map (iteration (Some 0%nat) nCores load) (seq 0 n))
    with (map (fun _ : nat => [EvRunNext; EvYield]) (seq 0 n)).
  - rewrite map_const, length_seq. reflexivity.
  - apply map_ext. intro k. unfold iteration. simpl.
    specialize (Hload k). destruct (load k); [lia|]. reflexivity.
Qed.

Lemma worker_zero_available_cores_witness :
  worker (Some 0%nat) 8 (fun _ => 1%nat) (fun k => match k with 0%nat => Running | _ => Ended end) 4 =
    ([EvWorkerInc; EvRunNext; EvYield; EvRunNext; EvYield; EvWorkerDec], true).
Proof.
  rewrite (worker_zero_available_cores 8 (fun _ => 1%nat)
             (fun k => match k with 0%nat => Running | _ => Ended end) 2 4);
    [reflexivity | intro; lia | | reflexivity | lia].
  intros k Hk. destruct k as [|[|k]]; simpl; try discriminate; lia.
Defined.

End WorkerExtras.
